(** * Real-time audio transcription: the App component of src/App.tsx

    A shallow embedding of the state held by the React component [App]
    (its [useState] cells and [useRef] cells), of the handlers it installs
    on the speech-recognition object, and of its user commands, followed by
    the properties of the transcript accumulation logic. *)

From Stdlib Require Import List NArith Bool Arith Lia String Ascii.
From Stdlib Require Import Permutation.
Import ListNotations.

(** ** JavaScript strings *)

Module JS.

(** A JavaScript string is a sequence of UTF-16 code units. *)
Definition jsstring := list N.

(** String literals of the source that are plain ASCII. *)
Definition lit (s : string) : jsstring :=
  List.map N_of_ascii (list_ascii_of_string s).

(** [if (s)] on a string: the empty string is the only falsy one. *)
Definition truthy (s : jsstring) : bool :=
  match s with
  | [] => false
  | _ :: _ => true
  end.

Definition eq_dec : forall a b : jsstring, {a = b} + {a <> b} :=
  list_eq_dec N.eq_dec.

(** WhiteSpace and LineTerminator code points of ECMAScript, the ones
    [String.prototype.trim] strips. All of them are single code units. *)
Definition isWhiteSpace (c : N) : bool :=
  ((9 <=? c) && (c <=? 13)
   || (c =? 32) || (c =? 160) || (c =? 5760)
   || (8192 <=? c) && (c <=? 8202)
   || (c =? 8232) || (c =? 8233) || (c =? 8239) || (c =? 8287)
   || (c =? 12288) || (c =? 65279))%N.

Fixpoint trimStart (s : jsstring) : jsstring :=
  match s with
  | [] => []
  | c :: r => if isWhiteSpace c then trimStart r else s
  end.

Definition trimEnd (s : jsstring) : jsstring :=
  rev (trimStart (rev s)).

(** [s.trim()]: both ends are stripped. *)
Definition trim (s : jsstring) : jsstring :=
  trimEnd (trimStart s).

End JS.

Import JS.

(** ** The external collaborators *)

(** What the page finds on [window]: each constructor is there or not. *)
Record Window := {
  has_SpeechRecognition : bool;
  has_webkitSpeechRecognition : bool
}.

(** [window.SpeechRecognition || window.webkitSpeechRecognition] is truthy. *)
Definition capability (w : Window) : bool :=
  has_SpeechRecognition w || has_webkitSpeechRecognition w.

(** The recognition object, as configured by the effect. *)
Record SpeechRecognition := {
  continuous : bool;
  interimResults : bool;
  lang : jsstring
}.

(** Calls the component issues on its collaborators, oldest first. *)
Inductive Call :=
| CallStart
| CallStop
| CallWriteText (text : jsstring)
| CallSetTimeout (ms : N).

(** One entry of [event.results]: its [isFinal] flag and the transcript of
    its first alternative, [event.results[i][0].transcript]. *)
Record SpeechRecognitionResult := {
  isFinal : bool;
  r_transcript : jsstring
}.

(** The argument of [onresult]. *)
Record ResultEvent := {
  resultIndex : nat;
  results : list SpeechRecognitionResult
}.

(** ** Component state *)

(** The [useState] cells and the refs, followed by three logs that the
    component itself does not read: [calls] (every call issued on a
    collaborator), [error_writes] (the argument of every [setError] call)
    and [received] (every method call made on a recognition object, with
    the object it was made on), each oldest first. *)
Record State := {
  isListening : bool;
  transcript : jsstring;
  language : jsstring;
  error : option jsstring;
  isCopied : bool;
  recognitionRef : option SpeechRecognition;
  transcriptAtSessionStart : jsstring;
  calls : list Call;
  error_writes : list (option jsstring);
  received : list (SpeechRecognition * Call)
}.

Definition setIsListening (v : bool) (s : State) : State :=
  {| isListening := v; transcript := transcript s; language := language s;
     error := error s; isCopied := isCopied s;
     recognitionRef := recognitionRef s;
     transcriptAtSessionStart := transcriptAtSessionStart s;
     calls := calls s;
     error_writes := error_writes s; received := received s |}.

Definition setTranscript (v : jsstring) (s : State) : State :=
  {| isListening := isListening s; transcript := v; language := language s;
     error := error s; isCopied := isCopied s;
     recognitionRef := recognitionRef s;
     transcriptAtSessionStart := transcriptAtSessionStart s;
     calls := calls s;
     error_writes := error_writes s; received := received s |}.

(** The bare state cell; [setLanguage] below adds the effect it triggers. *)
Definition assign_language (v : jsstring) (s : State) : State :=
  {| isListening := isListening s; transcript := transcript s; language := v;
     error := error s; isCopied := isCopied s;
     recognitionRef := recognitionRef s;
     transcriptAtSessionStart := transcriptAtSessionStart s;
     calls := calls s;
     error_writes := error_writes s; received := received s |}.

Definition setError (v : option jsstring) (s : State) : State :=
  {| isListening := isListening s; transcript := transcript s;
     language := language s; error := v; isCopied := isCopied s;
     recognitionRef := recognitionRef s;
     transcriptAtSessionStart := transcriptAtSessionStart s;
     calls := calls s;
     error_writes := error_writes s ++ [v]; received := received s |}.

Definition setIsCopied (v : bool) (s : State) : State :=
  {| isListening := isListening s; transcript := transcript s;
     language := language s; error := error s; isCopied := v;
     recognitionRef := recognitionRef s;
     transcriptAtSessionStart := transcriptAtSessionStart s;
     calls := calls s;
     error_writes := error_writes s; received := received s |}.

Definition set_recognitionRef (v : option SpeechRecognition) (s : State) : State :=
  {| isListening := isListening s; transcript := transcript s;
     language := language s; error := error s; isCopied := isCopied s;
     recognitionRef := v;
     transcriptAtSessionStart := transcriptAtSessionStart s;
     calls := calls s;
     error_writes := error_writes s; received := received s |}.

Definition set_transcriptAtSessionStart (v : jsstring) (s : State) : State :=
  {| isListening := isListening s; transcript := transcript s;
     language := language s; error := error s; isCopied := isCopied s;
     recognitionRef := recognitionRef s;
     transcriptAtSessionStart := v;
     calls := calls s;
     error_writes := error_writes s; received := received s |}.

Definition issue (c : Call) (s : State) : State :=
  {| isListening := isListening s; transcript := transcript s;
     language := language s; error := error s; isCopied := isCopied s;
     recognitionRef := recognitionRef s;
     transcriptAtSessionStart := transcriptAtSessionStart s;
     calls := calls s ++ [c];
     error_writes := error_writes s; received := received s |}.

(** A method call made on the recognition object [r]. *)
Definition deliver (r : SpeechRecognition) (c : Call) (s : State) : State :=
  {| isListening := isListening s; transcript := transcript s;
     language := language s; error := error s; isCopied := isCopied s;
     recognitionRef := recognitionRef s;
     transcriptAtSessionStart := transcriptAtSessionStart s;
     calls := calls s ++ [c];
     error_writes := error_writes s; received := received s ++ [(r, c)] |}.

(** [recognitionRef.current?.m()]: the call is made only on a live object,
    the one the ref holds. *)
Definition issue_on_recognition (c : Call) (s : State) : State :=
  match recognitionRef s with
  | Some r => deliver r c s
  | None => s
  end.

(** The values given to [useState] and [useRef]. *)
Definition initial_state : State :=
  {| isListening := false; transcript := []; language := lit "en-US";
     error := None; isCopied := false; recognitionRef := None;
     transcriptAtSessionStart := []; calls := [];
     error_writes := []; received := [] |}.

(** What [StatusIndicator] shows: the error first, then listening. *)
Inductive Status :=
| Idle
| Listening
| Error (message : jsstring).

Definition status (s : State) : Status :=
  match error s with
  | Some m => Error m
  | None => if isListening s then Listening else Idle
  end.

(** ** Handlers installed on the recognition object *)

Definition unsupported_message : jsstring :=
  lit "Speech recognition is not supported in this browser. Please try Chrome or Edge.".

Definition error_message (code : jsstring) : jsstring :=
  if eq_dec code (lit "no-speech") then
    lit "No speech was detected. Please try again."
  else if eq_dec code (lit "audio-capture") then
    lit "Microphone is not available. Please check your microphone settings."
  else if eq_dec code (lit "not-allowed") then
    lit "Permission to use microphone was denied. Please allow microphone access in your browser settings."
  else
    lit "An error occurred: " ++ code.

Definition onstart (s : State) : State :=
  setError None (setIsListening true s).

Definition onend (s : State) : State :=
  setIsListening false s.

Definition onerror (code : jsstring) (s : State) : State :=
  setError (Some (error_message code)) s.

(** The [for] loop of [onresult]: [i] runs from [event.resultIndex] while
    [i < event.results.length]; the pair is [(sessionFinalTranscript,
    sessionInterimTranscript)]. [fuel] bounds the number of iterations. *)
Fixpoint onresult_loop (fuel i : nat) (rs : list SpeechRecognitionResult)
    (fin int : jsstring) : jsstring * jsstring :=
  match fuel with
  | O => (fin, int)
  | S fuel' =>
      match nth_error rs i with
      | None => (fin, int)
      | Some r =>
          if isFinal r
          then onresult_loop fuel' (S i) rs (fin ++ r_transcript r) int
          else onresult_loop fuel' (S i) rs fin (int ++ r_transcript r)
      end
  end.

(** Both accumulators are locals of the handler and start empty on every
    event. *)
Definition scan (ev : ResultEvent) : jsstring * jsstring :=
  onresult_loop (List.length (results ev)) (resultIndex ev) (results ev) [] [].

Definition onresult (ev : ResultEvent) (s : State) : State :=
  let '(sessionFinalTranscript, sessionInterimTranscript) := scan ev in
  setTranscript
    (transcriptAtSessionStart s ++ sessionFinalTranscript ++ sessionInterimTranscript)
    s.

(** ** The effect keyed on [language] *)

Definition language_effect (w : Window) (s : State) : State :=
  if capability w then
    set_recognitionRef
      (Some {| continuous := true; interimResults := true; lang := language s |})
      s
  else
    setError (Some unsupported_message) s.

(** The cleanup the effect returned: [recognition.stop()], on the object
    that run of the effect built. The ref is assigned by the effect alone,
    so this is the object the ref holds when the cleanup runs. The early
    return of the unsupported branch returns no cleanup. *)
Definition language_effect_cleanup (w : Window) (s : State) : State :=
  if capability w then issue_on_recognition CallStop s else s.

(** First render followed by its effect. *)
Definition mount (w : Window) : State :=
  language_effect w initial_state.

(** The state setter together with the re-run of the effect that a changed
    [language] causes; setting the same value re-renders nothing. *)
Definition setLanguage (w : Window) (l : jsstring) (s : State) : State :=
  if eq_dec l (language s) then s
  else language_effect w (language_effect_cleanup w (assign_language l s)).

(** ** User commands *)

Definition handleToggleListening (s : State) : State :=
  if isListening s then
    issue_on_recognition CallStop s
  else
    let currentTranscript := trim (transcript s) in
    issue_on_recognition CallStart
      (set_transcriptAtSessionStart
         (if truthy currentTranscript then currentTranscript ++ lit " " else [])
         s).

Definition handleCopy (s : State) : State :=
  if truthy (transcript s) then
    issue (CallSetTimeout 2000)
      (setIsCopied true (issue (CallWriteText (transcript s)) s))
  else s.

Definition handleClear (s : State) : State :=
  set_transcriptAtSessionStart [] (setTranscript [] s).

(** ** The rendered controls *)

(** [disabled={!transcript || isListening}] on the clear and copy buttons. *)
Definition clear_disabled (s : State) : bool :=
  negb (truthy (transcript s)) || isListening s.

Definition copy_disabled (s : State) : bool :=
  negb (truthy (transcript s)) || isListening s.

(** [disabled={isListening}] on the language select. *)
Definition select_disabled (s : State) : bool :=
  isListening s.

(** Everything that can happen to the mounted component. *)
Inductive Event :=
| ClickMic
| ClickClear
| ClickCopy
| SelectLanguage (l : jsstring)
| CopiedTimeout
| OnStart
| OnEnd
| OnError (code : jsstring)
| OnResult (ev : ResultEvent).

(** A handler of the recognition object can only fire once the effect has
    built that object. *)
Definition from_recognition (h : State -> State) (s : State) : State :=
  match recognitionRef s with
  | Some _ => h s
  | None => s
  end.

(** A disabled control dispatches no event. *)
Definition step (w : Window) (e : Event) (s : State) : State :=
  match e with
  | ClickMic => handleToggleListening s
  | ClickClear => if clear_disabled s then s else handleClear s
  | ClickCopy => if copy_disabled s then s else handleCopy s
  | SelectLanguage l => if select_disabled s then s else setLanguage w l s
  | CopiedTimeout => setIsCopied false s
  | OnStart => from_recognition onstart s
  | OnEnd => from_recognition onend s
  | OnError code => from_recognition (onerror code) s
  | OnResult ev => from_recognition (onresult ev) s
  end.

Fixpoint run (w : Window) (es : list Event) (s : State) : State :=
  match es with
  | [] => s
  | e :: es' => run w es' (step w e s)
  end.

(** A browser that has only the prefixed constructor. *)
Definition chrome : Window :=
  {| has_SpeechRecognition := false; has_webkitSpeechRecognition := true |}.

(** A browser with neither constructor. *)
Definition bare : Window :=
  {| has_SpeechRecognition := false; has_webkitSpeechRecognition := false |}.

Definition final (t : string) : SpeechRecognitionResult :=
  {| isFinal := true; r_transcript := lit t |}.

Definition interim (t : string) : SpeechRecognitionResult :=
  {| isFinal := false; r_transcript := lit t |}.

Definition batch (i : nat) (rs : list SpeechRecognitionResult) : ResultEvent :=
  {| resultIndex := i; results := rs |}.

(** ** What a window of results contributes *)

(** The entries the loop visits: those at index [resultIndex] and above. *)
Definition window (ev : ResultEvent) : list SpeechRecognitionResult :=
  skipn (resultIndex ev) (results ev).

Fixpoint finals_of (rs : list SpeechRecognitionResult) : jsstring :=
  match rs with
  | [] => []
  | r :: rs' => (if isFinal r then r_transcript r else []) ++ finals_of rs'
  end.

Fixpoint interims_of (rs : list SpeechRecognitionResult) : jsstring :=
  match rs with
  | [] => []
  | r :: rs' => (if isFinal r then [] else r_transcript r) ++ interims_of rs'
  end.

(** ** The accumulator as the specification words it *)

Module Spec.

(** The three parts of the displayed transcript during a session. *)
Record Accumulator := {
  baseText : jsstring;
  finalizedSoFar : jsstring;
  interimBuffer : jsstring
}.

Definition session_start (base : jsstring) : Accumulator :=
  {| baseText := base; finalizedSoFar := []; interimBuffer := [] |}.

(** Final entries of the batch are appended to the session-scoped
    accumulator; the interim buffer is replaced. *)
Definition fold_batch (acc : Accumulator) (ev : ResultEvent) : Accumulator :=
  {| baseText := baseText acc;
     finalizedSoFar := finalizedSoFar acc ++ finals_of (window ev);
     interimBuffer := interims_of (window ev) |}.

Definition displayed (acc : Accumulator) : jsstring :=
  baseText acc ++ finalizedSoFar acc ++ interimBuffer acc.

(** Session start that strips trailing whitespace only. *)
Definition baseText_trailing_only (previous : jsstring) : jsstring :=
  let t := trimEnd previous in
  if truthy t then t ++ lit " " else [].

End Spec.

(** ** Strings *)

Definition starts_with_ws (s : jsstring) : bool :=
  match s with
  | [] => false
  | c :: _ => isWhiteSpace c
  end.

Definition ends_with_ws (s : jsstring) : bool :=
  starts_with_ws (rev s).

(** ** Invariants of the event loop *)

Definition is_result (e : Event) : bool :=
  match e with
  | OnResult _ => true
  | _ => false
  end.

(** Both the displayed transcript and the carried-over text are empty. *)
Definition cleared (s : State) : Prop :=
  transcript s = [] /\ transcriptAtSessionStart s = [].

(** What holds from the first effect on when [window] has no recognition
    constructor. *)
Definition capability_absent (s : State) : Prop :=
  error s = Some unsupported_message
  /\ recognitionRef s = None
  /\ ~ In CallStart (calls s).

(** ** The language picklist *)

Record LanguageOption := {
  code : jsstring;
  name : jsstring
}.

(** The names that are not plain ASCII are spelled by their code units. *)
Definition LANGUAGES : list LanguageOption :=
  [ {| code := lit "en-US"; name := lit "English (US)" |};
    {| code := lit "es-ES";
       name := lit "Espa" ++ [241%N] ++ lit "ol (Espa" ++ [241%N] ++ lit "a)" |};
    {| code := lit "fr-FR"; name := lit "Fran" ++ [231%N] ++ lit "ais" |};
    {| code := lit "de-DE"; name := lit "Deutsch" |};
    {| code := lit "it-IT"; name := lit "Italiano" |};
    {| code := lit "ja-JP"; name := [26085; 26412; 35486]%N |};
    {| code := lit "ko-KR"; name := [54620; 44397; 50612]%N |};
    {| code := lit "pt-BR"; name := lit "Portugu" ++ [234%N] ++ lit "s (Brasil)" |};
    {| code := lit "ru-RU"; name := [1056; 1091; 1089; 1089; 1082; 1080; 1081]%N |};
    {| code := lit "zh-CN";
       name := [20013; 25991]%N ++ lit " (" ++ [26222; 36890; 35805]%N ++ lit ")" |};
    {| code := lit "hi-IN"; name := [2361; 2367; 2344; 2381; 2342; 2368]%N |} ].

(** The values the select can report: the [value] of one of its options. *)
Definition offered (l : jsstring) : bool :=
  existsb (fun o => if eq_dec l (code o) then true else false) LANGUAGES.

Definition selects_offered (e : Event) : bool :=
  match e with
  | SelectLanguage l => offered l
  | _ => true
  end.

(** ** Classes of events *)

(** The events whose handlers call [setTranscript]. *)
Definition writes_transcript (e : Event) : bool :=
  match e with
  | OnResult _ | ClickClear => true
  | _ => false
  end.

(** The events whose handlers call [setIsListening]. *)
Definition is_lifecycle (e : Event) : bool :=
  match e with
  | OnStart | OnEnd => true
  | _ => false
  end.

(** The events whose recognition handlers call [setError]. *)
Definition writes_error (e : Event) : bool :=
  match e with
  | OnStart | OnError _ => true
  | _ => false
  end.

(** Carried-over text is empty, or non-empty text with no whitespace at
    either end followed by one space. *)
Definition separated (b : jsstring) : Prop :=
  b = []
  \/ exists c, b = c ++ lit " "
               /\ c <> []
               /\ starts_with_ws c = false
               /\ ends_with_ws c = false.

(** The recognition object exists and carries the selected language. *)
Definition configured (s : State) : Prop :=
  recognitionRef s
  = Some {| continuous := true; interimResults := true; lang := language s |}.

(** Final entries first, interim entries after them. *)
Definition finals_first (rs : list SpeechRecognitionResult) : Prop :=
  exists fs ps,
    rs = fs ++ ps
    /\ forallb isFinal fs = true
    /\ forallb (fun r => negb (isFinal r)) ps = true.

(** ** Counting language changes *)

Definition is_select (e : Event) : bool :=
  match e with
  | SelectLanguage _ => true
  | _ => false
  end.

(** How many events of the sequence changed the language state. *)
Fixpoint language_changes (w : Window) (es : list Event) (s : State) : nat :=
  match es with
  | [] => 0
  | e :: es' =>
      (if eq_dec (language (step w e s)) (language s) then 0 else 1)
      + language_changes w es' (step w e s)
  end.

(** ** Facts about [trim] *)

Lemma trimStart_split (s : jsstring) :
  exists pre, s = pre ++ trimStart s /\ forallb isWhiteSpace pre = true.
Proof.
  induction s as [|c r IH]; simpl.
  - exists []. split; reflexivity.
  - destruct (isWhiteSpace c) eqn:Hc.
    + destruct IH as [pre [Hs Hp]].
      exists (c :: pre). simpl. rewrite Hc, Hp. split; [f_equal; exact Hs | reflexivity].
    + exists []. split; reflexivity.
Qed.

Lemma trimStart_clean (s : jsstring) : starts_with_ws (trimStart s) = false.
Proof.
  induction s as [|c r IH]; simpl; [reflexivity|].
  destruct (isWhiteSpace c) eqn:Hc; [exact IH | simpl; exact Hc].
Qed.

Lemma forallb_rev (A : Type) (f : A -> bool) (l : list A) :
  forallb f (rev l) = forallb f l.
Proof.
  induction l as [|a l IH]; simpl; [reflexivity|].
  rewrite forallb_app, IH. simpl. rewrite andb_true_r. apply andb_comm.
Qed.

Lemma trimEnd_split (s : jsstring) :
  exists suf, s = trimEnd s ++ suf /\ forallb isWhiteSpace suf = true.
Proof.
  unfold trimEnd.
  destruct (trimStart_split (rev s)) as [pre [Hs Hp]].
  exists (rev pre). split.
  - rewrite <- rev_app_distr, <- Hs. symmetry. apply rev_involutive.
  - rewrite forallb_rev. exact Hp.
Qed.

Lemma trimEnd_clean (s : jsstring) : ends_with_ws (trimEnd s) = false.
Proof.
  unfold ends_with_ws, trimEnd. rewrite rev_involutive. apply trimStart_clean.
Qed.

(** Stripping the tail keeps a clean head clean. *)
Lemma trimEnd_keeps_head (s : jsstring) :
  starts_with_ws s = false -> starts_with_ws (trimEnd s) = false.
Proof.
  intros H. destruct (trimEnd_split s) as [suf [Hs _]].
  destruct (trimEnd s) as [|c t] eqn:Ht; [reflexivity|].
  rewrite Hs in H. exact H.
Qed.

Lemma trim_split (s : jsstring) :
  exists pre suf,
    s = pre ++ trim s ++ suf
    /\ forallb isWhiteSpace pre = true
    /\ forallb isWhiteSpace suf = true.
Proof.
  destruct (trimStart_split s) as [pre [Hs Hp]].
  destruct (trimEnd_split (trimStart s)) as [suf [Ht Hq]].
  exists pre, suf. unfold trim. rewrite <- Ht. auto.
Qed.

Lemma trim_clean (s : jsstring) :
  starts_with_ws (trim s) = false /\ ends_with_ws (trim s) = false.
Proof.
  unfold trim. split.
  - apply trimEnd_keeps_head, trimStart_clean.
  - apply trimEnd_clean.
Qed.

(** ** The loop of [onresult] *)

Lemma skipn_nth_error_cons (A : Type) (l : list A) (i : nat) (a : A) :
  nth_error l i = Some a -> skipn i l = a :: skipn (S i) l.
Proof.
  revert i. induction l as [|b l IH]; intros [|i] H; simpl in *; try discriminate.
  - congruence.
  - apply IH. exact H.
Qed.

(** With enough fuel the loop visits the whole window, in index order. *)
Lemma onresult_loop_window (fuel i : nat) (rs : list SpeechRecognitionResult)
    (fin int : jsstring) :
  List.length rs - i <= fuel ->
  onresult_loop fuel i rs fin int
  = (fin ++ finals_of (skipn i rs), int ++ interims_of (skipn i rs)).
Proof.
  revert i fin int.
  induction fuel as [|fuel IH]; intros i fin int Hfuel; simpl.
  - rewrite skipn_all2 by lia. simpl. now rewrite !app_nil_r.
  - destruct (nth_error rs i) as [r|] eqn:Hi.
    + assert (Hlt : i < List.length rs) by (apply nth_error_Some; congruence).
      rewrite (skipn_nth_error_cons _ rs i r Hi). simpl.
      destruct (isFinal r); rewrite IH by lia; simpl;
        now rewrite <- ?app_assoc.
    + apply nth_error_None in Hi.
      rewrite skipn_all2 by lia. simpl. now rewrite !app_nil_r.
Qed.

Lemma scan_window (ev : ResultEvent) :
  scan ev = (finals_of (window ev), interims_of (window ev)).
Proof.
  unfold scan, window. rewrite onresult_loop_window by lia. reflexivity.
Qed.

Lemma onresult_transcript (ev : ResultEvent) (s : State) :
  transcript (onresult ev s)
  = transcriptAtSessionStart s ++ finals_of (window ev) ++ interims_of (window ev).
Proof.
  unfold onresult. rewrite scan_window. reflexivity.
Qed.

Lemma onresult_frame (ev : ResultEvent) (s : State) :
  transcriptAtSessionStart (onresult ev s) = transcriptAtSessionStart s
  /\ isListening (onresult ev s) = isListening s
  /\ recognitionRef (onresult ev s) = recognitionRef s.
Proof.
  unfold onresult. destruct (scan ev). simpl. auto.
Qed.

Lemma window_empty (ev : ResultEvent) :
  List.length (results ev) <= resultIndex ev -> window ev = [].
Proof. intros H. unfold window. apply skipn_all2. exact H. Qed.

(** ** Folding result batches *)

(** C1. The specification keeps a session-scoped accumulator of finalized
    text, so that the transcript after each batch is baseText, then all
    text finalized so far in the session, then the current interim text.
    The handler keeps no such accumulator: in a session that starts with an
    empty transcript, after a first batch finalizes "hello" at index 0 the
    transcript is "hello"; a second batch whose [resultIndex] is 1, with
    "hello" still final at index 0 and " wor" interim at index 1, leaves
    the transcript " wor", while the accumulator of the specification
    displays "hello wor". *)
Theorem onresult_drops_finals_below_resultIndex :
  let s0 := run chrome [ClickMic; OnStart] (mount chrome) in
  let b1 := batch 0 [final "hello"] in
  let b2 := batch 1 [final "hello"; interim " wor"] in
  isListening s0 = true
  /\ transcript (run chrome [OnResult b1] s0) = lit "hello"
  /\ transcript (run chrome [OnResult b1; OnResult b2] s0) = lit " wor"
  /\ Spec.displayed
       (fold_left Spec.fold_batch [b1; b2]
          (Spec.session_start (transcriptAtSessionStart s0)))
     = lit "hello wor".
Proof. vm_compute. repeat split. Qed.

(** C3, as stated, fails: during a session whose first batch carried the
    interim text "hel", a batch with an empty window changes the
    transcript from "hel" to the empty string. *)
Lemma empty_batch_changes_transcript :
  let s := run chrome [ClickMic; OnStart; OnResult (batch 0 [interim "hel"])]
             (mount chrome) in
  let e := batch 0 [] in
  window e = []
  /\ isListening s = true
  /\ transcript s = lit "hel"
  /\ transcript (step chrome (OnResult e) s) = []
  /\ transcript (step chrome (OnResult e) s) <> transcript s.
Proof. vm_compute. repeat split. discriminate. Qed.

(** C3, amended. After a batch that finalized nothing, folding a batch
    with no entries in its scanned window removes exactly the interim text
    of that previous batch from the displayed transcript; when the
    previous batch showed no interim text either, the fold changes
    nothing at all. *)
Theorem empty_batch_drops_only_interim (s : State) (prev ev : ResultEvent) :
  List.length (results ev) <= resultIndex ev ->
  finals_of (window prev) = [] ->
  let s1 := onresult prev s in
  transcript s1 = transcript (onresult ev s1) ++ interims_of (window prev)
  /\ (interims_of (window prev) = [] -> onresult ev s1 = s1).
Proof.
  intros Hempty Hfin s1. subst s1.
  pose proof (window_empty ev Hempty) as Hw.
  split.
  - rewrite !onresult_transcript, Hw, Hfin.
    destruct (onresult_frame prev s) as [-> _]. simpl.
    now rewrite app_nil_r.
  - intros Hint. unfold onresult. rewrite !scan_window, Hw, Hfin, Hint.
    simpl. now rewrite app_nil_r.
Qed.

Lemma empty_batch_drops_only_interim_witness :
  let s := run chrome [ClickMic; OnStart] (mount chrome) in
  let prev := batch 0 [interim "hel"] in
  let ev := batch 0 [] in
  transcript (onresult prev s)
  = transcript (onresult ev (onresult prev s)) ++ lit "hel".
Proof.
  intros s prev ev.
  refine (proj1 (@empty_batch_drops_only_interim s prev ev _ _)).
  - simpl. lia.
  - reflexivity.
Defined.

(** C4. Interim text is replaced, never appended: whatever batch came
    before, after the batch whose only entry is the interim result "hello"
    at index 0 the interim text is exactly "hello" and the transcript is
    baseText followed by "hello"; after the batches "hel" then "hello" it
    is not baseText followed by "helhello". *)
Theorem interim_replaced_not_appended (s : State) (b1 : ResultEvent) :
  let hel := batch 0 [interim "hel"] in
  let hello := batch 0 [interim "hello"] in
  scan hel = ([], lit "hel")
  /\ scan hello = ([], lit "hello")
  /\ transcript (onresult hel s) = transcriptAtSessionStart s ++ lit "hel"
  /\ transcript (onresult hello (onresult b1 s))
     = transcriptAtSessionStart s ++ lit "hello"
  /\ transcript (onresult hello (onresult hel s))
     <> transcriptAtSessionStart s ++ lit "helhello".
Proof.
  intros hel hello.
  assert (Hafter : forall b, transcript (onresult hello (onresult b s))
                             = transcriptAtSessionStart s ++ lit "hello").
  { intros b. rewrite onresult_transcript.
    destruct (onresult_frame b s) as [-> _]. reflexivity. }
  repeat split; try reflexivity.
  - apply Hafter.
  - rewrite Hafter. intros H. apply app_inv_head in H. discriminate H.
Qed.

(** ** Session boundaries *)

(** C2, as stated, fails: [trim] strips the leading whitespace too. With
    the transcript " hi" left by a first session, the next start sets
    baseText to "hi ", not to " hi " as stripping the tail alone would. *)
Lemma start_session_strips_leading_whitespace :
  let s := run chrome
             [ClickMic; OnStart; OnResult (batch 0 [final " hi"]); ClickMic; OnEnd]
             (mount chrome) in
  isListening s = false
  /\ transcript s = lit " hi"
  /\ transcriptAtSessionStart (handleToggleListening s) = lit "hi "
  /\ Spec.baseText_trailing_only (transcript s) = lit " hi "
  /\ transcriptAtSessionStart (handleToggleListening s)
     <> Spec.baseText_trailing_only (transcript s).
Proof. vm_compute. repeat split. discriminate. Qed.

(** C2, amended. Starting a session while not listening sets baseText
    from the previous transcript stripped of whitespace at both ends: the
    stripped text is what remains between a whitespace-only prefix and a
    whitespace-only suffix and neither starts nor ends with whitespace;
    baseText is that text followed by one space when it is non-empty and
    the empty string otherwise. Hence transcript "hello", stop, start,
    final result "world" gives exactly "hello world". *)
Theorem start_session_baseText (s : State) :
  isListening s = false ->
  let c := trim (transcript s) in
  (exists pre suf,
      transcript s = pre ++ c ++ suf
      /\ forallb isWhiteSpace pre = true
      /\ forallb isWhiteSpace suf = true)
  /\ starts_with_ws c = false
  /\ ends_with_ws c = false
  /\ transcriptAtSessionStart (handleToggleListening s)
     = (if truthy c then c ++ lit " " else [])
  /\ transcript
       (run chrome
          [ClickMic; OnStart; OnResult (batch 0 [final "hello"]);
           ClickMic; OnEnd;
           ClickMic; OnStart; OnResult (batch 0 [final "world"])]
          (mount chrome))
     = lit "hello world".
Proof.
  intros Hidle c. subst c.
  split; [apply trim_split|].
  destruct (trim_clean (transcript s)) as [Hhd Htl].
  repeat split; try assumption.
  unfold handleToggleListening, issue_on_recognition. rewrite Hidle.
  destruct (recognitionRef _); reflexivity.
Qed.

Lemma start_session_baseText_witness :
  let s := setTranscript (lit "hello") (mount chrome) in
  transcriptAtSessionStart (handleToggleListening s) = lit "hello ".
Proof.
  intros s.
  exact (proj1 (proj2 (proj2 (proj2
           (@start_session_baseText s eq_refl))))).
Defined.

(** ** Clearing *)

(** C5. The clear command is rejected as a no-op whenever the component
    is listening or the transcript is already empty. [handleClear] has one
    caller, the clear button, and that button is disabled in exactly those
    states: invoking clear there changes nothing, the transcript and the
    carried-over baseText included. *)
Theorem click_clear_rejected (w : Window) (s : State) :
  isListening s = true \/ transcript s = [] ->
  step w ClickClear s = s.
Proof.
  intros H. unfold step, clear_disabled.
  destruct H as [H | H]; rewrite H; simpl;
    [now rewrite orb_true_r | reflexivity].
Qed.

Lemma click_clear_rejected_witness :
  let s := run chrome [ClickMic; OnStart; OnResult (batch 0 [final "abc"])]
             (mount chrome) in
  transcript (step chrome ClickClear s) = lit "abc".
Proof.
  intros s.
  rewrite (@click_clear_rejected chrome s (or_introl eq_refl)).
  reflexivity.
Defined.

(** No event other than a result batch brings text back once both the
    transcript and baseText are empty. *)
Lemma step_cleared (w : Window) (e : Event) (s : State) :
  is_result e = false -> cleared s -> cleared (step w e s).
Proof.
  unfold cleared. intros He [Ht Hb].
  destruct e; simpl in *; try discriminate;
    unfold from_recognition, handleToggleListening, handleClear, handleCopy,
      setLanguage, language_effect, language_effect_cleanup,
      issue_on_recognition, clear_disabled, copy_disabled, select_disabled;
    rewrite ?Ht; simpl;
    repeat match goal with
           | |- context [if ?b then _ else _] => destruct b; simpl
           | |- context [match recognitionRef ?x with _ => _ end] =>
               destruct (recognitionRef x); simpl
           end; auto.
Qed.

Lemma run_cleared (w : Window) (es : list Event) (s : State) :
  Forall (fun e => is_result e = false) es -> cleared s -> cleared (run w es s).
Proof.
  intros Hes. revert s.
  induction Hes as [|e es He _ IH]; intros s Hs; simpl; [exact Hs|].
  apply IH, step_cleared; assumption.
Qed.

(** C9. A permitted clear (not listening, transcript non-empty) empties
    the transcript and baseText; whatever happens next short of a result
    batch, the transcript stays empty and a session started afterwards
    has the empty baseText. *)
Theorem clear_resets_fully (w : Window) (s : State) (es : list Event) :
  isListening s = false ->
  transcript s <> [] ->
  Forall (fun e => is_result e = false) es ->
  let s1 := step w ClickClear s in
  let s2 := run w es s1 in
  transcript s1 = []
  /\ transcriptAtSessionStart s1 = []
  /\ transcript s2 = []
  /\ (isListening s2 = false ->
      transcriptAtSessionStart (step w ClickMic s2) = []).
Proof.
  intros Hidle Hne Hes s1 s2.
  assert (H1 : cleared s1).
  { subst s1. unfold step, clear_disabled. rewrite Hidle.
    destruct (transcript s) eqn:Ht; [congruence|]. simpl. split; reflexivity. }
  assert (H2 : cleared s2) by (apply run_cleared; assumption).
  destruct H1 as [H1t H1b]. destruct H2 as [H2t H2b].
  repeat split; try assumption.
  intros Hidle2. simpl. unfold handleToggleListening, issue_on_recognition.
  rewrite Hidle2, H2t. simpl.
  destruct (recognitionRef s2); reflexivity.
Qed.

Lemma clear_resets_fully_witness :
  let s := run chrome
             [ClickMic; OnStart; OnResult (batch 0 [final "abc"]); ClickMic; OnEnd]
             (mount chrome) in
  let es := [SelectLanguage (lit "fr-FR"); ClickCopy] in
  transcript s = lit "abc"
  /\ transcript (step chrome ClickClear s) = []
  /\ transcriptAtSessionStart
       (step chrome ClickMic (run chrome es (step chrome ClickClear s))) = [].
Proof.
  intros s es.
  assert (Hne : transcript s <> []) by (vm_compute; discriminate).
  assert (Hes : Forall (fun e => is_result e = false) es)
    by (repeat constructor).
  destruct (@clear_resets_fully chrome s es eq_refl Hne Hes)
    as [H1 [_ [_ H4]]].
  split; [reflexivity|]. split; [exact H1|]. apply H4. reflexivity.
Defined.

(** ** Errors *)

(** C6. An error event followed by the end event changes the status and
    nothing else: the transcript, baseText, the language, the recognition
    object, the copied flag and the issued calls are what they were, for
    every error code; the status shows the message of that code. *)
Theorem error_keeps_transcript (s : State) (code : jsstring) :
  let s' := onend (onerror code s) in
  transcript s' = transcript s
  /\ transcriptAtSessionStart s' = transcriptAtSessionStart s
  /\ language s' = language s
  /\ recognitionRef s' = recognitionRef s
  /\ isCopied s' = isCopied s
  /\ calls s' = calls s
  /\ status s' = Error (error_message code)
  /\ (forall w, transcript (run w [OnError code; OnEnd] s) = transcript s)
  /\ transcript
       (run chrome
          [ClickMic; OnStart; OnResult (batch 0 [final "abc"]);
           OnError (lit "no-speech"); OnEnd]
          (mount chrome))
     = lit "abc".
Proof.
  intros s'. subst s'. repeat split.
  intros w. simpl. unfold from_recognition.
  destruct (recognitionRef s) eqn:Href; simpl; rewrite Href; reflexivity.
Qed.

(** ** Language *)

(** C7, as stated, fails: the state setter applies the change whenever it
    is called. Called while listening in en-US with es-ES it changes the
    language state, stops the running recognition and builds a new one. *)
Lemma setLanguage_while_listening_applies :
  let s := run chrome [ClickMic; OnStart] (mount chrome) in
  let s' := setLanguage chrome (lit "es-ES") s in
  status s = Listening
  /\ language s = lit "en-US"
  /\ language s' = lit "es-ES"
  /\ option_map lang (recognitionRef s') = Some (lit "es-ES")
  /\ calls s' = [CallStart; CallStop]
  /\ language s' <> language s.
Proof. vm_compute. repeat split. discriminate. Qed.

(** C7, amended. A language change attempted through the language
    selector while listening is not applied, because the selector is
    disabled while listening: the language state, the recognition object
    and its language stay as they are. *)
Theorem select_language_locked (w : Window) (l : jsstring) (s : State) :
  isListening s = true ->
  step w (SelectLanguage l) s = s.
Proof.
  intros H. unfold step, select_disabled. now rewrite H.
Qed.

Lemma select_language_locked_witness :
  let s := run chrome [ClickMic; OnStart] (mount chrome) in
  language (step chrome (SelectLanguage (lit "es-ES")) s) = lit "en-US".
Proof.
  intros s.
  rewrite (@select_language_locked chrome (lit "es-ES") s eq_refl).
  reflexivity.
Defined.

(** ** Missing capability *)

Lemma mount_capability_absent (w : Window) :
  capability w = false -> capability_absent (mount w).
Proof.
  intros Hw. unfold mount, language_effect. rewrite Hw.
  repeat split. simpl. tauto.
Qed.

Lemma step_capability_absent (w : Window) (e : Event) (s : State) :
  capability w = false -> capability_absent s -> capability_absent (step w e s).
Proof.
  unfold capability_absent. intros Hw [He [Hr Hc]].
  destruct e; simpl;
    unfold from_recognition, handleToggleListening, handleClear, handleCopy,
      setLanguage, language_effect, language_effect_cleanup,
      issue_on_recognition, clear_disabled, copy_disabled, select_disabled;
    simpl; rewrite ?Hr, ?Hw;
    repeat match goal with
           | |- context [if ?b then _ else _] => destruct b; simpl
           end;
    repeat split; auto;
    rewrite ?in_app_iff; simpl; intuition discriminate.
Qed.

Lemma run_capability_absent (w : Window) (es : list Event) (s : State) :
  capability w = false -> capability_absent s -> capability_absent (run w es s).
Proof.
  intros Hw. revert s.
  induction es as [|e es IH]; intros s Hs; simpl; [exact Hs|].
  apply IH, step_capability_absent; assumption.
Qed.

Lemma error_message_not_unsupported (code : jsstring) :
  error_message code <> unsupported_message.
Proof.
  unfold error_message.
  repeat match goal with
         | |- context [if ?b then _ else _] => destruct b
         end; vm_compute; discriminate.
Qed.

Lemma step_keeps_language (w : Window) (e : Event) (s : State) :
  is_select e = false -> language (step w e s) = language s.
Proof.
  destruct e; simpl; intros He; try discriminate.
  - unfold handleToggleListening, issue_on_recognition.
    destruct (isListening s); simpl; destruct (recognitionRef s); reflexivity.
  - destruct (clear_disabled s); reflexivity.
  - unfold handleCopy. destruct (copy_disabled s); [reflexivity|].
    destruct (truthy (transcript s)); reflexivity.
  - reflexivity.
  - unfold from_recognition. destruct (recognitionRef s); reflexivity.
  - unfold from_recognition. destruct (recognitionRef s); reflexivity.
  - unfold from_recognition. destruct (recognitionRef s); reflexivity.
  - unfold from_recognition, onresult. destruct (scan ev).
    destruct (recognitionRef s); reflexivity.
Qed.

Lemma language_changes_without_select (w : Window) (es : list Event) (s : State) :
  Forall (fun e => is_select e = false) es -> language_changes w es s = 0.
Proof.
  intros Hes. revert s.
  induction Hes as [|e es He _ IH]; intros s; simpl; [reflexivity|].
  rewrite (step_keeps_language w e s He), IH.
  destruct (eq_dec (language s) (language s)); [reflexivity | congruence].
Qed.

(** Without a constructor, [setError] is called by the effect alone: an
    event stores the unsupported message again exactly when it changes
    the language. *)
Lemma step_error_writes_absent (w : Window) (e : Event) (s : State) :
  capability w = false ->
  capability_absent s ->
  error_writes (step w e s)
  = error_writes s
    ++ (if eq_dec (language (step w e s)) (language s)
        then [] else [Some unsupported_message]).
Proof.
  intros Hw [_ [Hr _]].
  assert (Hsame : forall s', language s' = language s ->
            error_writes s' = error_writes s ->
            error_writes s'
            = error_writes s
              ++ (if eq_dec (language s') (language s)
                  then [] else [Some unsupported_message])).
  { intros s' Hl He. rewrite Hl, He.
    destruct (eq_dec (language s) (language s)); [|congruence].
    now rewrite app_nil_r. }
  destruct e; simpl; unfold from_recognition; rewrite ?Hr;
    try (apply Hsame; reflexivity).
  - apply Hsame; unfold handleToggleListening, issue_on_recognition;
      destruct (isListening s); simpl; rewrite Hr; reflexivity.
  - apply Hsame; destruct (clear_disabled s); reflexivity.
  - apply Hsame; unfold handleCopy; destruct (copy_disabled s);
      try reflexivity; destruct (truthy (transcript s)); reflexivity.
  - destruct (select_disabled s); [apply Hsame; reflexivity|].
    unfold setLanguage, language_effect, language_effect_cleanup.
    destruct (eq_dec l (language s)) as [Heq | Hne];
      [apply Hsame; reflexivity|].
    rewrite Hw. simpl.
    destruct (eq_dec l (language s)); [congruence | reflexivity].
Qed.

Lemma run_error_writes_absent (w : Window) (es : list Event) (s : State) :
  capability w = false ->
  capability_absent s ->
  error_writes (run w es s)
  = error_writes s
    ++ repeat (Some unsupported_message) (language_changes w es s).
Proof.
  intros Hw. revert s.
  induction es as [|e es IH]; intros s Hs; simpl.
  - now rewrite app_nil_r.
  - rewrite IH by (apply step_capability_absent; assumption).
    rewrite (step_error_writes_absent w e s Hw Hs), <- app_assoc. f_equal.
    destruct (eq_dec (language (step w e s)) (language s)); reflexivity.
Qed.

(** C8, as stated, fails on "exactly once": the check sits in the effect
    keyed on the language, and the select stays enabled without a
    constructor, so a language change stores the unsupported message a
    second time. *)
Lemma unsupported_error_stored_again :
  let s := run bare [SelectLanguage (lit "fr-FR")] (mount bare) in
  capability bare = false
  /\ error_writes (mount bare) = [Some unsupported_message]
  /\ error_writes s = [Some unsupported_message; Some unsupported_message]
  /\ List.length (error_writes s) <> 1.
Proof. vm_compute. repeat split. discriminate. Qed.

(** C8, amended. When neither recognition constructor exists, the error
    status is empty before the first effect, is set by it to the
    unsupported message, and keeps that value through every later
    sequence of events. [setError] is called with that message once by
    the first effect and once more by each event that changes the
    language, with no other call: exactly once when no language is
    selected. The message differs from the message of every recognition
    error code. No recognition object exists and no [start()] call is
    ever issued, whatever is clicked. *)
Theorem capability_absent_persistent_error (w : Window) (es : list Event) :
  capability w = false ->
  let s := run w es (mount w) in
  error initial_state = None
  /\ error (mount w) = Some unsupported_message
  /\ error s = Some unsupported_message
  /\ status s = Error unsupported_message
  /\ recognitionRef s = None
  /\ ~ In CallStart (calls s)
  /\ calls (step w ClickMic s) = calls s
  /\ (forall code, error_message code <> unsupported_message)
  /\ error_writes (mount w) = [Some unsupported_message]
  /\ error_writes s
     = repeat (Some unsupported_message) (1 + language_changes w es (mount w))
  /\ (Forall (fun e => is_select e = false) es ->
      error_writes s = [Some unsupported_message]).
Proof.
  intros Hw s.
  pose proof (mount_capability_absent w Hw) as Hmount.
  destruct Hmount as [Hm _].
  destruct (run_capability_absent w es (mount w) Hw
              (mount_capability_absent w Hw)) as [He [Hr Hc]].
  fold s in He, Hr, Hc.
  assert (Hw1 : error_writes (mount w) = [Some unsupported_message]).
  { unfold mount, language_effect. rewrite Hw. reflexivity. }
  assert (Hws : error_writes s
                = repeat (Some unsupported_message)
                    (1 + language_changes w es (mount w))).
  { subst s.
    rewrite (run_error_writes_absent w es (mount w) Hw
               (mount_capability_absent w Hw)), Hw1.
    reflexivity. }
  repeat split; try assumption.
  - unfold status. now rewrite He.
  - simpl. unfold handleToggleListening, issue_on_recognition.
    destruct (isListening s); simpl; rewrite Hr; reflexivity.
  - apply error_message_not_unsupported.
  - intros Hes. rewrite Hws, (language_changes_without_select w es _ Hes).
    reflexivity.
Qed.

Lemma capability_absent_persistent_error_witness :
  let es := [ClickMic; SelectLanguage (lit "fr-FR"); ClickMic; ClickClear] in
  status (run bare es (mount bare)) = Error unsupported_message
  /\ ~ In CallStart (calls (run bare es (mount bare)))
  /\ error_writes (run bare es (mount bare))
     = [Some unsupported_message; Some unsupported_message].
Proof.
  intros es.
  destruct (@capability_absent_persistent_error bare es eq_refl)
    as [_ [_ [_ [Hs [_ [Hc [_ [_ [_ [Hn _]]]]]]]]]].
  split; [exact Hs|]. split; [exact Hc|]. exact Hn.
Defined.

(** ** Copying *)

(** C10. With an empty transcript [handleCopy] does nothing at all: no
    call is issued and the copied flag keeps its value. With a non-empty
    transcript it issues exactly one clipboard write, of the current
    transcript, sets the copied flag and arms the two-second timer; the
    transcript itself is untouched. *)
Theorem handleCopy_spec (s : State) :
  (transcript s = [] -> handleCopy s = s)
  /\ (transcript s <> [] ->
      calls (handleCopy s)
      = calls s ++ [CallWriteText (transcript s); CallSetTimeout 2000]
      /\ isCopied (handleCopy s) = true
      /\ transcript (handleCopy s) = transcript s).
Proof.
  unfold handleCopy. split; intros H.
  - now rewrite H.
  - destruct (transcript s) as [|c t] eqn:Ht; [congruence|]. simpl.
    rewrite Ht, <- app_assoc. repeat split.
Qed.

Lemma handleCopy_spec_witness :
  let s0 := mount chrome in
  let s := run chrome [ClickMic; OnStart; OnResult (batch 0 [final "abc"]); ClickMic; OnEnd]
             (mount chrome) in
  handleCopy s0 = s0
  /\ calls (handleCopy s)
     = [CallStart; CallStop; CallWriteText (lit "abc"); CallSetTimeout 2000]
  /\ isCopied (handleCopy s) = true.
Proof.
  intros s0 s.
  split; [exact (proj1 (handleCopy_spec s0) eq_refl)|].
  assert (Hne : transcript s <> []) by (vm_compute; discriminate).
  destruct (proj2 (handleCopy_spec s) Hne) as [Hc [Hf _]].
  split; [exact Hc | exact Hf].
Defined.

(** * Further properties of the component *)

(** ** The result loop *)

Lemma finals_of_filter (rs : list SpeechRecognitionResult) :
  finals_of rs = List.concat (map r_transcript (filter isFinal rs)).
Proof.
  induction rs as [|r rs IH]; simpl; [reflexivity|].
  destruct (isFinal r); simpl; now rewrite IH.
Qed.

Lemma interims_of_filter (rs : list SpeechRecognitionResult) :
  interims_of rs
  = List.concat (map r_transcript (filter (fun r => negb (isFinal r)) rs)).
Proof.
  induction rs as [|r rs IH]; simpl; [reflexivity|].
  destruct (isFinal r); simpl; now rewrite IH.
Qed.

(** X1. The loop of [onresult] returns, as its final text, the transcripts
    of the final entries at index [resultIndex] and above joined in index
    order, and as its interim text those of the non-final entries of the
    same range; entries below [resultIndex] contribute nothing. *)
Theorem scan_filter_concat (ev : ResultEvent) :
  scan ev
  = (List.concat (map r_transcript
               (filter isFinal (skipn (resultIndex ev) (results ev)))),
     List.concat (map r_transcript
               (filter (fun r => negb (isFinal r))
                  (skipn (resultIndex ev) (results ev))))).
Proof.
  rewrite scan_window, finals_of_filter, interims_of_filter. reflexivity.
Qed.

Lemma finals_interims_permutation (rs : list SpeechRecognitionResult) :
  Permutation (finals_of rs ++ interims_of rs) (List.concat (map r_transcript rs)).
Proof.
  induction rs as [|r rs IH]; simpl; [constructor|].
  destruct (isFinal r); simpl.
  - rewrite <- app_assoc. now apply Permutation_app_head.
  - rewrite Permutation_app_swap_app. now apply Permutation_app_head.
Qed.

Lemma length_concat_texts (rs : list SpeechRecognitionResult) :
  List.length (List.concat (map r_transcript rs))
  = list_sum (map (fun r => List.length (r_transcript r)) rs).
Proof.
  induction rs as [|r rs IH]; simpl; [reflexivity|].
  now rewrite length_app, IH.
Qed.

(** X2. A result batch loses and duplicates nothing inside its window:
    what the transcript holds after baseText is a rearrangement of the
    code units of all entries from [resultIndex] on, so its length is the
    length of baseText plus the lengths of those entries. *)
Theorem onresult_conserves_window (ev : ResultEvent) (s : State) :
  exists shown,
    transcript (onresult ev s) = transcriptAtSessionStart s ++ shown
    /\ Permutation shown (List.concat (map r_transcript (window ev)))
    /\ List.length (transcript (onresult ev s))
       = List.length (transcriptAtSessionStart s)
         + list_sum (map (fun r => List.length (r_transcript r)) (window ev)).
Proof.
  exists (finals_of (window ev) ++ interims_of (window ev)).
  pose proof (finals_interims_permutation (window ev)) as HP.
  split; [apply onresult_transcript|]. split; [exact HP|].
  rewrite onresult_transcript, length_app. f_equal.
  rewrite (Permutation_length HP). apply length_concat_texts.
Qed.

(** X3. When the final entries of the window precede its interim entries,
    the transcript after the batch is baseText followed by the entries of
    the window in index order. *)
Theorem onresult_in_index_order (ev : ResultEvent) (s : State) :
  finals_first (window ev) ->
  transcript (onresult ev s)
  = transcriptAtSessionStart s ++ List.concat (map r_transcript (window ev)).
Proof.
  intros [fs [ps [Hw [Hf Hp]]]].
  rewrite onresult_transcript, Hw. f_equal.
  rewrite map_app, List.concat_app.
  assert (Hfin : forall l, forallb isFinal l = true ->
                   finals_of l = List.concat (map r_transcript l)
                   /\ interims_of l = []).
  { induction l as [|r l IH]; simpl; [auto|].
    intros H. apply andb_prop in H as [Hr Hl]. rewrite Hr.
    destruct (IH Hl) as [-> ->]. auto. }
  assert (Hint : forall l, forallb (fun r => negb (isFinal r)) l = true ->
                   interims_of l = List.concat (map r_transcript l)
                   /\ finals_of l = []).
  { induction l as [|r l IH]; simpl; [auto|].
    intros H. apply andb_prop in H as [Hr Hl].
    apply negb_true_iff in Hr. rewrite Hr.
    destruct (IH Hl) as [-> ->]. auto. }
  assert (Happ : forall a b, finals_of (a ++ b) = finals_of a ++ finals_of b
                   /\ interims_of (a ++ b) = interims_of a ++ interims_of b).
  { induction a as [|r a IH]; intros b; simpl; [auto|].
    destruct (IH b) as [-> ->]. now rewrite !app_assoc. }
  destruct (Happ fs ps) as [-> ->].
  destruct (Hfin fs Hf) as [-> ->]. destruct (Hint ps Hp) as [-> ->].
  simpl. now rewrite app_nil_r.
Qed.

Lemma onresult_in_index_order_witness :
  let s := run chrome [ClickMic; OnStart] (mount chrome) in
  let ev := batch 1 [final "zero"; final "one "; interim "two"] in
  transcript (onresult ev s) = lit "one two".
Proof.
  intros s ev.
  refine (@onresult_in_index_order ev s _).
  exists [final "one "], [interim "two"]. repeat split.
Defined.

(** X4. The state after a result batch depends on that batch and on the
    state before the session's earlier batches only: folding a batch after
    another gives the state that folding it alone gives, and folding the
    same batch twice is folding it once. *)
Theorem onresult_last_batch_wins (b1 b2 : ResultEvent) (s : State) :
  onresult b2 (onresult b1 s) = onresult b2 s
  /\ onresult b2 (onresult b2 s) = onresult b2 s.
Proof.
  assert (H : forall b, onresult b2 (onresult b s) = onresult b2 s).
  { intros b. unfold onresult. destruct (scan b2), (scan b). reflexivity. }
  split; apply H.
Qed.

(** ** Session boundaries, continued *)

Lemma trimStart_fixed (l : jsstring) :
  starts_with_ws l = false -> trimStart l = l.
Proof. destruct l as [|c l]; simpl; [reflexivity|]. now intros ->. Qed.

Lemma trim_after_space (c : jsstring) :
  c <> [] -> starts_with_ws c = false -> ends_with_ws c = false ->
  trim (c ++ lit " ") = c.
Proof.
  intros Hne Hhd Htl. unfold trim.
  rewrite trimStart_fixed by (destruct c; [congruence | exact Hhd]).
  unfold trimEnd. rewrite rev_app_distr.
  change (rev (lit " ") ++ rev c) with (32%N :: rev c).
  change (trimStart (32%N :: rev c)) with (trimStart (rev c)).
  rewrite trimStart_fixed by exact Htl. apply rev_involutive.
Qed.

Lemma start_base (s : State) :
  isListening s = false ->
  transcriptAtSessionStart (handleToggleListening s)
  = (if truthy (trim (transcript s)) then trim (transcript s) ++ lit " " else []).
Proof.
  intros H. unfold handleToggleListening, issue_on_recognition. rewrite H.
  destruct (recognitionRef _); reflexivity.
Qed.

Lemma start_base_separated (t : jsstring) :
  separated (if truthy (trim t) then trim t ++ lit " " else []).
Proof.
  destruct (trim_clean t) as [Hhd Htl].
  destruct (trim t) as [|c r] eqn:Ht; simpl; [left; reflexivity|].
  right. exists (c :: r). repeat split; [discriminate | exact Hhd | exact Htl].
Qed.

Lemma handleToggleListening_frame (s : State) :
  transcript (handleToggleListening s) = transcript s
  /\ isListening (handleToggleListening s) = isListening s
  /\ recognitionRef (handleToggleListening s) = recognitionRef s
  /\ error (handleToggleListening s) = error s
  /\ language (handleToggleListening s) = language s.
Proof.
  unfold handleToggleListening, issue_on_recognition.
  destruct (isListening s) eqn:Hl; simpl;
    destruct (recognitionRef s) eqn:Hr; simpl; rewrite ?Hl, ?Hr; auto.
Qed.

Lemma run_app (w : Window) (es1 es2 : list Event) (s : State) :
  run w (es1 ++ es2) s = run w es2 (run w es1 s).
Proof.
  revert s. induction es1 as [|e es1 IH]; intros s; simpl; [reflexivity|].
  apply IH.
Qed.

Lemma run_results_frame (w : Window) (bs : list ResultEvent) (s : State) :
  transcriptAtSessionStart (run w (map OnResult bs) s) = transcriptAtSessionStart s
  /\ recognitionRef (run w (map OnResult bs) s) = recognitionRef s.
Proof.
  revert s. induction bs as [|b bs IH]; intros s; simpl; [auto|].
  destruct (IH (from_recognition (onresult b) s)) as [-> ->].
  unfold from_recognition. destruct (recognitionRef s) eqn:Hr; [|auto].
  destruct (onresult_frame b s) as [-> [_ ->]]. auto.
Qed.

(** X5. A new session extends the text of the earlier ones: started while
    not listening on a live recognition object, after the start
    notification and one or more result batches the transcript is the
    previous transcript stripped of whitespace at both ends, one space if
    that is non-empty, then the final and the interim text of the last
    batch. *)
Theorem session_extends_previous_text (w : Window) (s : State)
    (bs : list ResultEvent) (b : ResultEvent) :
  isListening s = false ->
  recognitionRef s <> None ->
  transcript (run w (ClickMic :: OnStart :: map OnResult (bs ++ [b])) s)
  = (if truthy (trim (transcript s)) then trim (transcript s) ++ lit " " else [])
    ++ finals_of (window b) ++ interims_of (window b).
Proof.
  intros Hidle Hrec. simpl.
  rewrite map_app, run_app. simpl.
  set (s1 := from_recognition onstart (handleToggleListening s)).
  destruct (handleToggleListening_frame s) as [_ [_ [Hr _]]].
  assert (Hs1 : transcriptAtSessionStart s1
                = transcriptAtSessionStart (handleToggleListening s)
                /\ recognitionRef s1 = recognitionRef s).
  { subst s1. unfold from_recognition. rewrite Hr.
    destruct (recognitionRef s) eqn:E; [|congruence]. simpl. auto. }
  destruct Hs1 as [Hb1 Hr1].
  destruct (run_results_frame w bs s1) as [Hb2 Hr2].
  unfold from_recognition. rewrite Hr2, Hr1.
  destruct (recognitionRef s); [|congruence].
  rewrite onresult_transcript, Hb2, Hb1, start_base by exact Hidle.
  reflexivity.
Qed.

Lemma session_extends_previous_text_witness :
  let s := setTranscript (lit "  good morning ") (mount chrome) in
  transcript
    (run chrome
       [ClickMic; OnStart;
        OnResult (batch 0 [interim "ever"]);
        OnResult (batch 0 [final "everyone"; interim " he"])] s)
  = lit "good morning everyone he".
Proof.
  intros s.
  refine (@session_extends_previous_text chrome s
            [batch 0 [interim "ever"]]
            (batch 0 [final "everyone"; interim " he"]) eq_refl _).
  vm_compute. discriminate.
Defined.

(** X6. Restarting does not pile up separators: when the transcript is
    exactly the baseText an earlier start computed (a session that showed
    no text), the next start computes the same baseText again. *)
Theorem restart_keeps_baseText (s s' : State) :
  isListening s = false ->
  isListening s' = false ->
  transcript s' = transcriptAtSessionStart (handleToggleListening s) ->
  transcriptAtSessionStart (handleToggleListening s') = transcript s'.
Proof.
  intros Hs Hs' Ht. rewrite (start_base s' Hs'), Ht, (start_base s Hs).
  destruct (start_base_separated (transcript s)) as [-> | [c [-> [Hne [Hhd Htl]]]]].
  - reflexivity.
  - rewrite (trim_after_space c Hne Hhd Htl).
    destruct c; [congruence | reflexivity].
Qed.

Lemma restart_keeps_baseText_witness :
  let s := setTranscript (lit "hello") (mount chrome) in
  let s' := run chrome [ClickMic; OnStart; OnResult (batch 0 []); ClickMic; OnEnd] s in
  transcript s' = lit "hello "
  /\ transcriptAtSessionStart (handleToggleListening s') = lit "hello ".
Proof.
  intros s s'. split; [reflexivity|].
  exact (@restart_keeps_baseText s s' eq_refl eq_refl eq_refl).
Defined.

Lemma step_separated (w : Window) (e : Event) (s : State) :
  separated (transcriptAtSessionStart s) ->
  separated (transcriptAtSessionStart (step w e s)).
Proof.
  intros H. destruct e; simpl.
  - destruct (isListening s) eqn:Hl.
    + unfold handleToggleListening, issue_on_recognition. rewrite Hl.
      destruct (recognitionRef s); exact H.
    + rewrite (start_base s Hl). apply start_base_separated.
  - destruct (clear_disabled s); [exact H | left; reflexivity].
  - unfold handleCopy. destruct (copy_disabled s); [exact H|].
    destruct (truthy (transcript s)); exact H.
  - unfold setLanguage, language_effect, language_effect_cleanup.
    destruct (select_disabled s); [exact H|].
    destruct (eq_dec l (language s)); [exact H|].
    destruct (capability w); [|exact H].
    unfold issue_on_recognition. simpl. destruct (recognitionRef s); exact H.
  - exact H.
  - unfold from_recognition. destruct (recognitionRef s); exact H.
  - unfold from_recognition. destruct (recognitionRef s); exact H.
  - unfold from_recognition. destruct (recognitionRef s); exact H.
  - unfold from_recognition. destruct (recognitionRef s); [|exact H].
    destruct (onresult_frame ev s) as [-> _]. exact H.
Qed.

(** X7. In every state the component reaches, the carried-over baseText
    is either empty or non-empty text that neither starts nor ends with
    whitespace followed by exactly one space. *)
Theorem baseText_always_separated (w : Window) (es : list Event) :
  separated (transcriptAtSessionStart (run w es (mount w))).
Proof.
  assert (H : forall s, separated (transcriptAtSessionStart s) ->
                        separated (transcriptAtSessionStart (run w es s))).
  { induction es as [|e es IH]; intros s Hs; simpl; [exact Hs|].
    apply IH, step_separated, Hs. }
  apply H. unfold mount, language_effect.
  destruct (capability w); left; reflexivity.
Qed.

(** ** Which events touch which part of the state *)

Lemma step_keeps_transcript (w : Window) (e : Event) (s : State) :
  writes_transcript e = false -> transcript (step w e s) = transcript s.
Proof.
  destruct e; simpl; intros He; try discriminate.
  - apply handleToggleListening_frame.
  - unfold handleCopy. destruct (copy_disabled s); [reflexivity|].
    destruct (truthy (transcript s)); reflexivity.
  - unfold setLanguage, language_effect, language_effect_cleanup.
    destruct (select_disabled s); [reflexivity|].
    destruct (eq_dec l (language s)); [reflexivity|].
    destruct (capability w); [|reflexivity].
    unfold issue_on_recognition. simpl. destruct (recognitionRef s); reflexivity.
  - reflexivity.
  - unfold from_recognition. destruct (recognitionRef s); reflexivity.
  - unfold from_recognition. destruct (recognitionRef s); reflexivity.
  - unfold from_recognition. destruct (recognitionRef s); reflexivity.
Qed.

(** X8. Only result batches and the clear button change the displayed
    transcript: through any sequence of microphone clicks, copies, copy
    timeouts, language changes and start, end and error notifications the
    transcript stays what it was. *)
Theorem transcript_kept_by_other_events (w : Window) (es : list Event)
    (s : State) :
  Forall (fun e => writes_transcript e = false) es ->
  transcript (run w es s) = transcript s.
Proof.
  intros Hes. revert s.
  induction Hes as [|e es He _ IH]; intros s; simpl; [reflexivity|].
  rewrite IH. apply step_keeps_transcript, He.
Qed.

Lemma transcript_kept_by_other_events_witness :
  let s := run chrome [ClickMic; OnStart; OnResult (batch 0 [final "abc"])]
             (mount chrome) in
  transcript
    (run chrome
       [ClickMic; OnEnd; ClickCopy; SelectLanguage (lit "de-DE"); CopiedTimeout;
        ClickMic; OnStart; OnError (lit "network"); OnEnd] s)
  = lit "abc".
Proof.
  intros s.
  refine (@transcript_kept_by_other_events chrome _ s _).
  repeat constructor.
Defined.

Lemma step_keeps_isListening (w : Window) (e : Event) (s : State) :
  is_lifecycle e = false -> isListening (step w e s) = isListening s.
Proof.
  destruct e; simpl; intros He; try discriminate.
  - apply handleToggleListening_frame.
  - destruct (clear_disabled s); reflexivity.
  - unfold handleCopy. destruct (copy_disabled s); [reflexivity|].
    destruct (truthy (transcript s)); reflexivity.
  - unfold setLanguage, language_effect, language_effect_cleanup.
    destruct (select_disabled s); [reflexivity|].
    destruct (eq_dec l (language s)); [reflexivity|].
    destruct (capability w); [|reflexivity].
    unfold issue_on_recognition. simpl. destruct (recognitionRef s); reflexivity.
  - reflexivity.
  - unfold from_recognition. destruct (recognitionRef s); reflexivity.
  - unfold from_recognition. destruct (recognitionRef s); [|reflexivity].
    apply onresult_frame.
Qed.

(** X9. The listening flag follows the recognition object, not the
    buttons: no sequence of events without a start or end notification
    changes it, microphone clicks included. *)
Theorem isListening_follows_notifications (w : Window) (es : list Event)
    (s : State) :
  Forall (fun e => is_lifecycle e = false) es ->
  isListening (run w es s) = isListening s.
Proof.
  intros Hes. revert s.
  induction Hes as [|e es He _ IH]; intros s; simpl; [reflexivity|].
  rewrite IH. apply step_keeps_isListening, He.
Qed.

Lemma isListening_follows_notifications_witness :
  isListening
    (run chrome [ClickMic; ClickMic; OnResult (batch 0 [final "abc"]); ClickClear]
       (mount chrome))
  = false.
Proof.
  refine (@isListening_follows_notifications chrome _ (mount chrome) _).
  repeat constructor.
Defined.

Lemma issue_on_recognition_live (c : Call) (s : State) :
  recognitionRef s <> None ->
  calls (issue_on_recognition c s) = calls s ++ [c].
Proof.
  unfold issue_on_recognition. destruct (recognitionRef s); [reflexivity|congruence].
Qed.

(** X10. Clicking the microphone [n] times with no notification in
    between issues the same call [n] times on a live recognition object:
    [start()] each time while not listening, [stop()] each time while
    listening. *)
Theorem repeated_clicks_repeat_call (w : Window) (n : nat) (s : State) :
  recognitionRef s <> None ->
  calls (run w (repeat ClickMic n) s)
  = calls s ++ repeat (if isListening s then CallStop else CallStart) n.
Proof.
  revert s. induction n as [|n IH]; intros s Hrec; simpl.
  - now rewrite app_nil_r.
  - destruct (handleToggleListening_frame s) as [_ [Hl [Hr _]]].
    rewrite IH by (rewrite Hr; exact Hrec). rewrite Hl.
    unfold handleToggleListening.
    destruct (isListening s); rewrite issue_on_recognition_live by exact Hrec;
      simpl; now rewrite <- app_assoc.
Qed.

Lemma repeated_clicks_repeat_call_witness :
  calls (run chrome [ClickMic; ClickMic] (mount chrome)) = [CallStart; CallStart].
Proof.
  refine (@repeated_clicks_repeat_call chrome 2 (mount chrome) _).
  vm_compute. discriminate.
Defined.

(** ** The recognition object and the language *)

Lemma setLanguage_configured (w : Window) (l : jsstring) (s : State) :
  capability w = true -> configured s -> configured (setLanguage w l s).
Proof.
  intros Hw Hs. unfold setLanguage, language_effect, language_effect_cleanup.
  destruct (eq_dec l (language s)); [exact Hs|].
  rewrite Hw. unfold issue_on_recognition. simpl.
  destruct (recognitionRef s); reflexivity.
Qed.

Lemma step_configured (w : Window) (e : Event) (s : State) :
  capability w = true -> configured s -> configured (step w e s).
Proof.
  unfold configured. intros Hw Hs. destruct e; simpl.
  - destruct (handleToggleListening_frame s) as [_ [_ [-> [_ ->]]]]. exact Hs.
  - destruct (clear_disabled s); exact Hs.
  - unfold handleCopy. destruct (copy_disabled s); [exact Hs|].
    destruct (truthy (transcript s)); exact Hs.
  - destruct (select_disabled s); [exact Hs|].
    apply setLanguage_configured; assumption.
  - exact Hs.
  - unfold from_recognition. rewrite Hs. simpl. exact Hs.
  - unfold from_recognition. rewrite Hs. simpl. exact Hs.
  - unfold from_recognition. rewrite Hs. simpl. exact Hs.
  - unfold from_recognition, onresult. destruct (scan ev).
    rewrite Hs. simpl. exact Hs.
Qed.

Lemma run_configured (w : Window) (es : list Event) (s : State) :
  capability w = true -> configured s -> configured (run w es s).
Proof.
  intros Hw. revert s.
  induction es as [|e es IH]; intros s Hs; simpl; [exact Hs|].
  apply IH, step_configured; assumption.
Qed.

(** X11. When the browser has a recognition constructor, in every state
    the component reaches the recognition object exists, is continuous,
    reports interim results and carries the currently selected language. *)
Theorem recognition_follows_language (w : Window) (es : list Event) :
  capability w = true ->
  let s := run w es (mount w) in
  recognitionRef s
  = Some {| continuous := true; interimResults := true; lang := language s |}.
Proof.
  intros Hw. apply run_configured; [exact Hw|].
  unfold configured, mount, language_effect. rewrite Hw. reflexivity.
Qed.

Lemma recognition_follows_language_witness :
  let es := [SelectLanguage (lit "fr-FR"); ClickMic; OnStart;
             SelectLanguage (lit "de-DE"); ClickMic; OnEnd;
             SelectLanguage (lit "ja-JP")] in
  option_map lang (recognitionRef (run chrome es (mount chrome)))
  = Some (lit "ja-JP").
Proof.
  intros es.
  pose proof (@recognition_follows_language chrome es eq_refl) as H.
  cbv zeta in H. rewrite H. reflexivity.
Defined.

(** X12. Selecting a different language tears the recognition down and
    builds it anew: [stop()] is issued once, on the old recognition object
    (the one that carries the previous language), the new object carries
    the new language, and the transcript, baseText, listening flag and
    error are untouched. Selecting the current language does nothing. *)
Theorem setLanguage_rebuilds (w : Window) (l : jsstring) (s : State) :
  capability w = true ->
  configured s ->
  l <> language s ->
  let old := {| continuous := true; interimResults := true;
                lang := language s |} in
  let s' := setLanguage w l s in
  language s' = l
  /\ recognitionRef s'
     = Some {| continuous := true; interimResults := true; lang := l |}
  /\ calls s' = calls s ++ [CallStop]
  /\ received s' = received s ++ [(old, CallStop)]
  /\ transcript s' = transcript s
  /\ transcriptAtSessionStart s' = transcriptAtSessionStart s
  /\ isListening s' = isListening s
  /\ error s' = error s
  /\ setLanguage w (language s) s = s.
Proof.
  intros Hw Hs Hl old s'. subst old s'.
  unfold setLanguage, language_effect, language_effect_cleanup,
    issue_on_recognition.
  destruct (eq_dec l (language s)); [congruence|].
  destruct (eq_dec (language s) (language s)); [|congruence].
  rewrite Hw. simpl. rewrite Hs. repeat split.
Qed.

Lemma setLanguage_rebuilds_witness :
  let s := mount chrome in
  let s' := setLanguage chrome (lit "ko-KR") s in
  language s' = lit "ko-KR"
  /\ received s'
     = [({| continuous := true; interimResults := true; lang := lit "en-US" |},
         CallStop)].
Proof.
  intros s s'.
  assert (Hl : lit "ko-KR" <> language s) by (vm_compute; discriminate).
  destruct (@setLanguage_rebuilds chrome (lit "ko-KR") s eq_refl eq_refl Hl)
    as [H1 [_ [_ [H4 _]]]].
  split; [exact H1 | exact H4].
Defined.

Lemma step_offered (w : Window) (e : Event) (s : State) :
  selects_offered e = true ->
  offered (language s) = true ->
  offered (language (step w e s)) = true.
Proof.
  intros He Hs. destruct e; simpl in *.
  - destruct (handleToggleListening_frame s) as [_ [_ [_ [_ ->]]]]. exact Hs.
  - destruct (clear_disabled s); exact Hs.
  - unfold handleCopy. destruct (copy_disabled s); [exact Hs|].
    destruct (truthy (transcript s)); exact Hs.
  - unfold setLanguage, language_effect, language_effect_cleanup.
    destruct (select_disabled s); [exact Hs|].
    destruct (eq_dec l (language s)); [exact Hs|].
    destruct (capability w); [|exact He].
    unfold issue_on_recognition. simpl. destruct (recognitionRef s); exact He.
  - exact Hs.
  - unfold from_recognition. destruct (recognitionRef s); exact Hs.
  - unfold from_recognition. destruct (recognitionRef s); exact Hs.
  - unfold from_recognition. destruct (recognitionRef s); exact Hs.
  - unfold from_recognition, onresult. destruct (scan ev).
    destruct (recognitionRef s); exact Hs.
Qed.

(** X13. The option values of the picklist are pairwise distinct, and as
    long as the select reports values of its own options the language
    state is always one of them, from the initial en-US on. *)
Theorem language_always_offered (w : Window) (es : list Event) :
  forallb selects_offered es = true ->
  NoDup (map code LANGUAGES)
  /\ offered (language (run w es (mount w))) = true.
Proof.
  intros Hes. split.
  - assert (H : nodup eq_dec (map code LANGUAGES) = map code LANGUAGES)
      by (vm_compute; reflexivity).
    rewrite <- H. apply NoDup_nodup.
  - assert (H : forall s, offered (language s) = true ->
                          offered (language (run w es s)) = true).
    { induction es as [|e es IH]; intros s Hs; simpl in *; [exact Hs|].
      apply andb_prop in Hes as [He Hes].
      apply IH; [exact Hes|]. apply step_offered; assumption. }
    apply H. unfold mount, language_effect.
    destruct (capability w); vm_compute; reflexivity.
Qed.

Lemma language_always_offered_witness :
  let es := [SelectLanguage (lit "hi-IN"); ClickMic; OnStart;
             SelectLanguage (lit "ru-RU")] in
  offered (language (run chrome es (mount chrome))) = true.
Proof.
  intros es.
  exact (proj2 (@language_always_offered chrome es eq_refl)).
Defined.

(** ** Errors, continued *)

Lemma step_keeps_error (w : Window) (e : Event) (s : State) :
  capability w = true ->
  writes_error e = false ->
  error (step w e s) = error s.
Proof.
  intros Hw. destruct e; simpl; intros He; try discriminate.
  - apply handleToggleListening_frame.
  - destruct (clear_disabled s); reflexivity.
  - unfold handleCopy. destruct (copy_disabled s); [reflexivity|].
    destruct (truthy (transcript s)); reflexivity.
  - unfold setLanguage, language_effect, language_effect_cleanup.
    destruct (select_disabled s); [reflexivity|].
    destruct (eq_dec l (language s)); [reflexivity|].
    rewrite Hw. unfold issue_on_recognition. simpl.
    destruct (recognitionRef s); reflexivity.
  - reflexivity.
  - unfold from_recognition. destruct (recognitionRef s); reflexivity.
  - unfold from_recognition, onresult. destruct (scan ev).
    destruct (recognitionRef s); reflexivity.
Qed.

Lemma step_keeps_recognition (w : Window) (e : Event) (s : State) :
  capability w = true ->
  recognitionRef s <> None ->
  recognitionRef (step w e s) <> None.
Proof.
  intros Hw Hs. destruct e; simpl.
  - destruct (handleToggleListening_frame s) as [_ [_ [-> _]]]. exact Hs.
  - destruct (clear_disabled s); exact Hs.
  - unfold handleCopy. destruct (copy_disabled s); [exact Hs|].
    destruct (truthy (transcript s)); exact Hs.
  - unfold setLanguage, language_effect, language_effect_cleanup.
    destruct (select_disabled s); [exact Hs|].
    destruct (eq_dec l (language s)); [exact Hs|].
    rewrite Hw. simpl. discriminate.
  - exact Hs.
  - unfold from_recognition. destruct (recognitionRef s) eqn:Hr; [|congruence].
    simpl. congruence.
  - unfold from_recognition. destruct (recognitionRef s) eqn:Hr; [|congruence].
    simpl. congruence.
  - unfold from_recognition. destruct (recognitionRef s) eqn:Hr; [|congruence].
    simpl. congruence.
  - unfold from_recognition. destruct (recognitionRef s) eqn:Hr; [|congruence].
    destruct (onresult_frame ev s) as [_ [_ ->]]. congruence.
Qed.

(** X14. With a recognition constructor present, an error message stays
    in the error state through every sequence of events that holds no
    start and no error notification (clicks, copies, language changes,
    results and the end notification included), and the next start
    notification replaces it by the listening status. *)
Theorem error_shown_until_start (w : Window) (es : list Event) (s : State) :
  capability w = true ->
  recognitionRef s <> None ->
  Forall (fun e => writes_error e = false) es ->
  error (run w es s) = error s
  /\ status (run w (es ++ [OnStart]) s) = Listening.
Proof.
  intros Hw Hrec Hes.
  assert (H : error (run w es s) = error s /\ recognitionRef (run w es s) <> None).
  { revert s Hrec.
    induction Hes as [|e es He _ IH]; intros s Hrec; simpl; [auto|].
    destruct (IH (step w e s) (step_keeps_recognition w e s Hw Hrec)) as [-> Hr].
    split; [apply step_keeps_error; assumption | exact Hr]. }
  destruct H as [He Hr]. split; [exact He|].
  rewrite run_app. simpl. unfold from_recognition.
  destruct (recognitionRef (run w es s)); [reflexivity | congruence].
Qed.

Lemma error_shown_until_start_witness :
  let s := run chrome [ClickMic; OnStart; OnError (lit "no-speech")] (mount chrome) in
  let es := [OnEnd; ClickMic; SelectLanguage (lit "it-IT"); ClickMic] in
  error (run chrome es s) = Some (lit "No speech was detected. Please try again.")
  /\ status (run chrome (es ++ [OnStart]) s) = Listening.
Proof.
  intros s es.
  assert (Hrec : recognitionRef s <> None) by (vm_compute; discriminate).
  assert (Hes : Forall (fun e => writes_error e = false) es)
    by (repeat constructor).
  destruct (@error_shown_until_start chrome es s eq_refl Hrec Hes) as [He Hs].
  split; [rewrite He; reflexivity | exact Hs].
Defined.

(** X15. The message shown for an error tells the error codes apart: two
    different codes never get the same message, and the message of a code
    other than no-speech, audio-capture and not-allowed ends with the code
    itself. *)
Theorem error_message_injective (c1 c2 : jsstring) :
  (error_message c1 = error_message c2 -> c1 = c2)
  /\ (c1 <> lit "no-speech" -> c1 <> lit "audio-capture" ->
      c1 <> lit "not-allowed" ->
      error_message c1 = lit "An error occurred: " ++ c1).
Proof.
  split.
  - unfold error_message.
    destruct (eq_dec c1 (lit "no-speech")) as [-> | _];
      [| destruct (eq_dec c1 (lit "audio-capture")) as [-> | _];
         [| destruct (eq_dec c1 (lit "not-allowed")) as [-> | _]]];
      (destruct (eq_dec c2 (lit "no-speech")) as [-> | _];
       [| destruct (eq_dec c2 (lit "audio-capture")) as [-> | _];
          [| destruct (eq_dec c2 (lit "not-allowed")) as [-> | _]]]);
      intros H; try reflexivity;
      try (vm_compute in H; discriminate H).
    apply app_inv_head in H. exact H.
  - intros H1 H2 H3. unfold error_message.
    destruct (eq_dec c1 (lit "no-speech")); [congruence|].
    destruct (eq_dec c1 (lit "audio-capture")); [congruence|].
    destruct (eq_dec c1 (lit "not-allowed")); [congruence|].
    reflexivity.
Qed.

Lemma error_message_injective_witness :
  error_message (lit "network") = lit "An error occurred: network".
Proof.
  apply (proj2 (error_message_injective (lit "network") (lit "network")));
    vm_compute; discriminate.
Defined.

(** ** The copy button *)

(** X16. The copy button is dead while listening or while the transcript
    is empty: a click then changes nothing. Otherwise a click followed by
    the timer writes the transcript to the clipboard once, shows the
    acknowledgment until the timer fires and leaves it cleared after,
    with the transcript unchanged. *)
Theorem copy_button_cycle (w : Window) (s : State) :
  (isListening s = true \/ transcript s = [] -> step w ClickCopy s = s)
  /\ (isListening s = false -> transcript s <> [] ->
      let s' := run w [ClickCopy; CopiedTimeout] s in
      isCopied (step w ClickCopy s) = true
      /\ isCopied s' = false
      /\ calls s' = calls s ++ [CallWriteText (transcript s); CallSetTimeout 2000]
      /\ transcript s' = transcript s).
Proof.
  split.
  - intros H. unfold step, copy_disabled.
    destruct H as [H | H]; rewrite H; simpl;
      [now rewrite orb_true_r | reflexivity].
  - intros Hl Ht. simpl. unfold copy_disabled, handleCopy. rewrite Hl.
    destruct (transcript s) as [|c t] eqn:E; [congruence|]. simpl.
    rewrite E, <- app_assoc. repeat split.
Qed.

Lemma copy_button_cycle_witness :
  let s := run chrome [ClickMic; OnStart; OnResult (batch 0 [final "abc"])]
             (mount chrome) in
  let s' := step chrome OnEnd s in
  step chrome ClickCopy s = s
  /\ calls (run chrome [ClickCopy; CopiedTimeout] s')
     = [CallStart; CallWriteText (lit "abc"); CallSetTimeout 2000].
Proof.
  intros s s'.
  split; [exact (proj1 (copy_button_cycle chrome s) (or_introl eq_refl))|].
  assert (Hne : transcript s' <> []) by (vm_compute; discriminate).
  destruct (proj2 (copy_button_cycle chrome s') eq_refl Hne) as [_ [_ [Hc _]]].
  exact Hc.
Defined.
